(** * Routing types of the frontend plugin API

    A model of [packages/frontend-plugin-api/src/routing/types.ts].

    The file declares types only, apart from one module-level constant
    ([routeRefType]).  Its type aliases are functions from types to types
    ([RouteFunc], [OptionalParams], [ParamKeys], [ExternalRouteRef]); they
    are embedded as functions over a small universe of TypeScript types,
    evaluated the way the type checker evaluates them: [keyof], indexed
    access, assignability ([extends]) and conditional types, distributive
    where the checked type is a bare type parameter.  Object types are member
    lists, JavaScript objects are finite maps from property names to values,
    and a typing judgement relates the two.  The module constant is a
    computation in a state monad over the process state. *)

From stdpp Require Import gmap strings list fin_maps relations.

Local Open Scope string_scope.

(** ** The type universe *)

(** A union type is the list of its constituents; [never] is the empty
    union.  The constituents that are not parameter shapes are atoms. *)
Inductive atom :=
  | AUndefined                  (* undefined *)
  | AString                     (* string *)
  | ANumber                     (* number *)
  | ASymbol                     (* symbol *)
  | ALit (s : string)           (* a string literal type such as 'external' *)
  | ATrue                       (* true *)
  | AFalse                      (* false *)
  | AObject (name : string).    (* an object of the interface called [name] *)

Abbreviation ty := (list atom).

Global Instance atom_eq_dec : EqDecision atom.
Proof. solve_decision. Defined.

Definition never : ty := [].
Definition Tstring : ty := [AString].
Definition Tboolean : ty := [ATrue; AFalse].
Definition literal (s : string) : ty := [ALit s].

(** The constituents of a route-parameter type: [undefined], an object type
    literal [{ k1: T1; ...; kn: Tn }] with its members in declaration order,
    or the mapped type [{ [param in string]: V }], which is an object type
    with a string index signature. *)
Inductive shape :=
  | PUndefined
  | PObject (props : list (string * ty))
  | PMapped (value : ty).

Abbreviation params := (list shape).

Definition Tundefined : params := [PUndefined].

(** Tuple and array types over element types [E]. *)
Inductive listty (E : Type) :=
  | Tuple (readonly : bool) (elems : list E)
  | Array (elem : E).
Arguments Tuple {E} readonly elems.
Arguments Array {E} elem.

(** A function type [(...args: R) => T], where the rest parameter type [R] is
    a union of tuple types: each constituent is one admissible argument
    list. *)
Record functy := Func { rest : list (listty params); returns : ty }.

(** ** Assignability *)

Definition atom_extends (a b : atom) : bool :=
  match a, b with
  | ALit _, AString => true
  | _, _ => bool_decide (a = b)
  end.

(** A union is assignable when each of its constituents is assignable to
    some constituent of the target; so [T extends never] holds for [never]
    only. *)
Definition ty_extends (S T : ty) : bool :=
  forallb (fun a => existsb (atom_extends a) T) S.

Fixpoint prop_type (props : list (string * ty)) (k : string) : option ty :=
  match props with
  | [] => None
  | (k', T) :: props' => if String.eqb k' k then Some T else prop_type props' k
  end.

(** Object type literals have an implicit index signature: they are
    assignable to [{ [param in string]: V }] when every member is. *)
Definition shape_extends (a b : shape) : bool :=
  match a, b with
  | PUndefined, PUndefined => true
  | PObject ps, PMapped v => forallb (fun p => ty_extends p.2 v) ps
  | PMapped u, PMapped v => ty_extends u v
  | PObject ps, PObject qs =>
      forallb (fun q => match prop_type ps q.1 with
                        | Some T => ty_extends T q.2
                        | None => false
                        end) qs
  | PMapped _, PObject qs => match qs with [] => true | _ => false end
  | _, _ => false
  end.

Definition extends (P Q : params) : bool :=
  forallb (fun a => existsb (shape_extends a) Q) P.

(** A conditional type whose checked type is a bare type parameter
    distributes over the constituents of the argument ([never] gives
    [never]). *)
Definition distribute {R : Type} (P : params) (f : params -> list R) : list R :=
  flat_map (fun a => f [a]) P.

(** ** [keyof] and indexed access *)

Definition key_meet (a b : atom) : ty :=
  match a, b with
  | ALit s, ALit t => if String.eqb s t then [ALit s] else []
  | ALit s, AString | AString, ALit s => [ALit s]
  | AString, AString => [AString]
  | ANumber, ANumber => [ANumber]
  | ASymbol, ASymbol => [ASymbol]
  | _, _ => []
  end.

Definition key_inter (K1 K2 : ty) : ty :=
  flat_map (fun a => flat_map (key_meet a) K2) K1.

Definition keyof_shape (a : shape) : ty :=
  match a with
  | PUndefined => never
  | PObject ps => map (fun p => ALit p.1) ps
  | PMapped _ => [AString; ANumber]
  end.

(** [keyof (A | B)] is [keyof A & keyof B]; [keyof never] is every key. *)
Definition keyof (P : params) : ty :=
  match P with
  | [] => [AString; ANumber; ASymbol]
  | a :: P' => foldl key_inter (keyof_shape a) (map keyof_shape P')
  end.

Definition shape_index (a : shape) (k : atom) : ty :=
  match a, k with
  | PObject ps, ALit s => default never (prop_type ps s)
  | PMapped v, (AString | ANumber | ALit _) => v
  | _, _ => never
  end.

(** [P[K]]: the union of the member types selected by the keys. *)
Definition index_access (P : params) (K : ty) : ty :=
  flat_map (fun a => flat_map (shape_index a) K) P.

(** ** The type aliases of the file *)

(** [export type AnyRouteParams = { [param in string]: string } | undefined] *)
Definition AnyRouteParams : params := [PMapped Tstring; PUndefined].

(** Modelled from the spec: [AnyParams] bounds the parameter of [RouteFunc]
    and [ExternalRouteRef] but is not declared in the file.  The spec knows
    one parameter-shape type, a mapping from parameter names to text or
    undefined, which is [AnyRouteParams]. *)
Definition AnyParams : params := AnyRouteParams.

(** [export type RouteFunc<Params extends AnyParams> = (
      ...[params]: Params extends undefined ? readonly [] : readonly [Params]
    ) => string] *)
Definition RouteFunc (Params : params) : functy :=
  {| rest := distribute Params (fun Params =>
               if extends Params Tundefined
               then [Tuple true []]
               else [Tuple true [Params]]);
     returns := Tstring |}.

(** [export type OptionalParams<Params extends { [param in string]: string }> =
      Params[keyof Params] extends never ? undefined : Params] *)
Definition OptionalParams (Params : params) : params :=
  if ty_extends (index_access Params (keyof Params)) never
  then Tundefined
  else Params.

(** [export type ParamKeys<TParams extends AnyRouteParams> =
      keyof TParams extends never ? [] : (keyof TParams)[]] *)
Definition ParamKeys (TParams : params) : listty ty :=
  if ty_extends (keyof TParams) never
  then Tuple false []
  else Array (keyof TParams).

(** The arities a function type admits. *)
Definition accepts_arity (f : functy) (n : nat) : bool :=
  existsb (fun R => match R with
                    | Tuple _ es => Nat.eqb (length es) n
                    | Array _ => true
                    end) (rest f).

Definition shape_id : params := [PObject [("id", Tstring)]].
Definition shape_org_repo : params :=
  [PObject [("orgId", Tstring); ("repoId", Tstring)]].
Definition shape_empty : params := [PObject []].

(** A function type takes exactly [n] arguments. *)
Definition requires_exactly (f : functy) (n : nat) : Prop :=
  forall m, accepts_arity f m = true <-> m = n.

(** ** Values *)

Abbreviation loc := nat.

(** Primitive values and references to heap objects.  Two symbols are the
    same value when they were created by the same call of [Symbol]; two
    references are the same value when they point to the same object. *)
Inductive scalar :=
  | VUndefined
  | VBool (b : bool)
  | VNum (n : Z)
  | VStr (s : string)
  | VSym (id : nat) (description : string)
  | VRef (l : loc).

Global Instance scalar_eq_dec : EqDecision scalar.
Proof. solve_decision. Defined.

Definition scalar_code (v : scalar) : () + bool + Z + string + nat * string + nat :=
  match v with
  | VUndefined => inl (inl (inl (inl (inl ()))))
  | VBool b => inl (inl (inl (inl (inr b))))
  | VNum n => inl (inl (inl (inr n)))
  | VStr s => inl (inl (inr s))
  | VSym i d => inl (inr (i, d))
  | VRef l => inr l
  end.

Definition scalar_decode (c : () + bool + Z + string + nat * string + nat) : scalar :=
  match c with
  | inl (inl (inl (inl (inl ())))) => VUndefined
  | inl (inl (inl (inl (inr b)))) => VBool b
  | inl (inl (inl (inr n))) => VNum n
  | inl (inl (inr s)) => VStr s
  | inl (inr (i, d)) => VSym i d
  | inr l => VRef l
  end.

Global Instance scalar_countable : Countable scalar.
Proof.
  refine (inj_countable' scalar_code scalar_decode _). by intros [].
Defined.

(** What a property of an object holds: a primitive or a reference, an
    array, or a [Set]. *)
Inductive value :=
  | VScalar (v : scalar)
  | VArray (vs : list scalar)
  | VSet (s : gset scalar).

Abbreviation object := (gmap string value).

(** ** Object types and the typing judgement *)

Inductive member_type :=
  | MType (T : ty)
  | MList (L : listty ty)
  | MSet (T : ty)                 (* Set<T> *)
  | MExternal (name : string).    (* a type declared by another package *)

(** A member [name: T], or [name?: T] when [m_optional] is set. *)
Record member := Member {
  m_name : string;
  m_optional : bool;
  m_type : member_type
}.

Abbreviation interface := (list member).

Section typing.
(** The heap typing: the interface each allocated object was created at. *)
Variable Σ : gmap loc string.

Definition has_atom (v : scalar) (a : atom) : bool :=
  match a, v with
  | AUndefined, VUndefined => true
  | AString, VStr _ => true
  | ANumber, VNum _ => true
  | ASymbol, VSym _ _ => true
  | ALit s, VStr t => String.eqb s t
  | ATrue, VBool true => true
  | AFalse, VBool false => true
  | AObject name, VRef l => bool_decide (Σ !! l = Some name)
  | _, _ => false
  end.

Definition has_ty (v : scalar) (T : ty) : bool := existsb (has_atom v) T.

Fixpoint has_tuple (vs : list scalar) (es : list ty) : bool :=
  match vs, es with
  | [], [] => true
  | v :: vs', T :: es' => has_ty v T && has_tuple vs' es'
  | _, _ => false
  end.

Definition has_listty (vs : list scalar) (L : listty ty) : bool :=
  match L with
  | Tuple _ es => has_tuple vs es
  | Array T => forallb (fun v => has_ty v T) vs
  end.

Definition has_member_type (x : value) (M : member_type) : bool :=
  match M, x with
  | MType T, VScalar v => has_ty v T
  | MList L, VArray vs => has_listty vs L
  | MSet T, VSet s => forallb (fun v => has_ty v T) (elements s)
  | MExternal _, _ => true
  | _, _ => false
  end.

Definition is_undefined (x : value) : bool :=
  match x with VScalar VUndefined => true | _ => false end.

(** A required member is present with a value of its type; an optional
    member is absent, [undefined], or a value of its type.  Object types
    are open: further properties are allowed. *)
Definition has_member (o : object) (m : member) : bool :=
  match o !! m_name m with
  | Some x =>
      has_member_type x (m_type m) || (m_optional m && is_undefined x)
  | None => m_optional m
  end.

Definition conforms (o : object) (decl : interface) : bool :=
  forallb (has_member o) decl.
End typing.

(** [export type ExternalRouteRef<Params extends AnyParams = any,
                                  Optional extends boolean = any> = {
      $$routeRefType: 'external';
      params: ParamKeys<Params>;
      optional?: Optional;
    }]
    The universe has no [any]: the two arguments are always given. *)
Definition ExternalRouteRef (Params : params) (Optional : ty) : interface :=
  [ Member "$$routeRefType" false (MType (literal "external"));
    Member "params" false (MList (ParamKeys Params));
    Member "optional" true (MType Optional) ].

(** [export interface BackstageRouteObject {
      caseSensitive: boolean;
      children?: BackstageRouteObject[];
      element: React.ReactNode;
      path: string;
      routeRefs: Set<RouteRef>;
    }] *)
Definition BackstageRouteObject : interface :=
  [ Member "caseSensitive" false (MType Tboolean);
    Member "children" true (MList (Array [AObject "BackstageRouteObject"]));
    Member "element" false (MExternal "React.ReactNode");
    Member "path" false (MType Tstring);
    Member "routeRefs" false (MSet [AObject "RouteRef"]) ].

(** The interfaces the file declares, by name.  [RouteRef] is declared
    elsewhere: nothing is known of the members of such an object. *)
Definition declared (name : string) : option interface :=
  if String.eqb name "BackstageRouteObject" then Some BackstageRouteObject
  else None.

(** ** The process state and the shared marker *)

(** What the module constant can observe or change: the process-wide table
    of shared singletons, the symbols created so far, and the objects of the
    heap. *)
Record process := Process {
  registry : gmap string scalar;
  symbols : nat;
  heap : gmap loc object
}.

Definition M (A : Type) : Type := process -> A * process.

(** [Symbol(description)]: a new symbol, different from every earlier one. *)
Definition Symbol (description : string) : M scalar := fun st =>
  (VSym (symbols st) description,
   Process (registry st) (S (symbols st)) (heap st)).

(** Modelled from the spec: [getOrCreateGlobalSingleton] is imported from
    [@backstage/version-bridge] and its code is not part of the file.  The
    spec gives its contract: "return the same marker value for a given key
    across all callers in the process, creating it on first request", with
    "idempotent creation (first caller creates it, all callers thereafter
    observe the same value); no invalidation, no explicit teardown". *)
Definition getOrCreateGlobalSingleton (id : string) (supplier : M scalar)
    : M scalar := fun st =>
  match registry st !! id with
  | Some v => (v, st)
  | None =>
      let '(v, st') := supplier st in
      (v, Process (<[id := v]> (registry st')) (symbols st') (heap st'))
  end.

(** [export const routeRefType: unique symbol = getOrCreateGlobalSingleton<any>(
      'route-ref-type',
      () => Symbol('route-ref-type'),
    )]: what every loaded copy of the module evaluates. *)
Definition routeRefType : M scalar :=
  getOrCreateGlobalSingleton "route-ref-type" (Symbol "route-ref-type").

(** A supplier creates a value; it may register singletons of its own but
    the accessor gives it no way to drop one. *)
Definition keeps_registry (s : M scalar) : Prop :=
  forall st, registry st ⊆ registry (s st).2.

(** The later life of the process, as far as the registry is concerned: any
    number of further calls of the accessor, with any keys and suppliers. *)
Inductive call : process -> process -> Prop :=
  | call_accessor id s st :
      keeps_registry s -> call st (getOrCreateGlobalSingleton id s st).2.

Definition fresh_process : process := Process ∅ 0 ∅.

(** The process after one copy of the module and then some other module
    have been loaded. *)
Definition process_after_two_loads : process :=
  (getOrCreateGlobalSingleton "other-key" (Symbol "other")
     (routeRefType fresh_process).2).2.

(** ** Binding of an external route reference *)

Inductive binding := Required | MayBeUnbound.

(** Modelled from the spec: the step of the hosting application that binds
    external route references is not part of the file.  The spec describes
    the flag as "indicating whether the hosting application may leave this
    reference unbound" and says that a descriptor, "when the optional flag is
    unset, defaults to required binding semantics". *)
Definition binding_of (o : object) : binding :=
  match o !! "optional" with
  | Some (VScalar (VBool true)) => MayBeUnbound
  | _ => Required
  end.

(** A descriptor object with the given parameter names and flag. *)
Definition external_ref (keys : list scalar) (optional : option bool) : object :=
  let o : object :=
    {[ "$$routeRefType" := VScalar (VStr "external"); "params" := VArray keys ]} in
  match optional with
  | Some b => <["optional" := VScalar (VBool b)]> o
  | None => o
  end.

(** The three states of the flag of a descriptor. *)
Definition flag_absent (o : object) : object := delete "optional" o.
Definition flag_set (b : bool) (o : object) : object :=
  <["optional" := VScalar (VBool b)]> o.

(** ** Route tree nodes in the heap *)

(** The references held by the [children] array of a node, and the members
    of its [routeRefs] set. *)
Definition children_of (o : object) : list scalar :=
  match o !! "children" with
  | Some (VArray vs) => vs
  | _ => []
  end.

Definition routeRefs_of (o : object) : gset scalar :=
  match o !! "routeRefs" with
  | Some (VSet s) => s
  | _ => ∅
  end.

(** [c] is listed among the children of the node at [p]. *)
Definition child_of (h : gmap loc object) (c : scalar) (p : loc) : Prop :=
  exists o, h !! p = Some o /\ c ∈ children_of o.

(** Every parent-child edge of the heap. *)
Definition edges (h : gmap loc object) : list (loc * scalar) :=
  flat_map (fun po => map (fun c => (po.1, c)) (children_of po.2))
           (map_to_list h).

(** Exclusive ownership: no node is listed among the children of two
    nodes. *)
Definition exclusive_children (h : gmap loc object) : Prop :=
  forall c p p', child_of h c p -> child_of h c p' -> p = p'.

(** A heap agrees with its typing when every object allocated at a declared
    interface is there and conforms to it. *)
Definition heap_conforms (Σ : gmap loc string) (h : gmap loc object) : bool :=
  forallb (fun ln =>
    match declared ln.2 with
    | Some decl => match h !! ln.1 with
                   | Some o => conforms Σ o decl
                   | None => false
                   end
    | None => true
    end) (map_to_list Σ).

(** A node object with the given fields; [children] is left out when it is
    [None]. *)
Definition node (cs : bool) (children : option (list scalar)) (element : value)
    (path : string) (refs : gset scalar) : object :=
  let o : object :=
    {[ "caseSensitive" := VScalar (VBool cs);
       "element" := element;
       "path" := VScalar (VStr path);
       "routeRefs" := VSet refs ]} in
  match children with
  | Some vs => <["children" := VArray vs]> o
  | None => o
  end.

(** A tree of three nodes: a root with two children.  The reference at 10 is
    associated with the root and with its first child; the root is
    associated with two references. *)
Definition tree_typing : gmap loc string :=
  {[ 0 := "BackstageRouteObject"; 1 := "BackstageRouteObject";
     2 := "BackstageRouteObject"; 10 := "RouteRef"; 11 := "RouteRef" ]}.

Definition tree_root : object :=
  node false (Some [VRef 1; VRef 2]) (VScalar VUndefined) "/"
       {[ VRef 10; VRef 11 ]}.
Definition tree_catalog : object :=
  node false None (VScalar (VStr "catalog")) "/catalog" {[ VRef 10 ]}.
Definition tree_docs : object :=
  node true (Some []) (VScalar VUndefined) "/docs" ∅.

Definition tree_heap : gmap loc object :=
  {[ 0 := tree_root; 1 := tree_catalog; 2 := tree_docs ]}.

(** ** Notions used by the further properties *)



(** The node at [l] is listed among the children of the node at [p]. *)
Definition child_node (h : gmap loc object) (p l : loc) : Prop :=
  child_of h (VRef l) p.

(** * Properties *)

(** ** Worked instances *)

Example RouteFunc_undefined : RouteFunc Tundefined = Func [Tuple true []] Tstring.
Proof. reflexivity. Qed.
Example RouteFunc_id : RouteFunc shape_id = Func [Tuple true [shape_id]] Tstring.
Proof. reflexivity. Qed.
Example RouteFunc_empty_object :
  RouteFunc shape_empty = Func [Tuple true [shape_empty]] Tstring.
Proof. reflexivity. Qed.
Example ParamKeys_two_keys :
  ParamKeys shape_org_repo = Array [ALit "orgId"; ALit "repoId"].
Proof. reflexivity. Qed.
Example ParamKeys_undefined : ParamKeys Tundefined = Tuple false [].
Proof. reflexivity. Qed.
Example OptionalParams_empty_object : OptionalParams shape_empty = Tundefined.
Proof. reflexivity. Qed.
Example OptionalParams_id : OptionalParams shape_id = shape_id.
Proof. reflexivity. Qed.
Example RouteFunc_any_route_params : RouteFunc AnyRouteParams
  = Func [Tuple true [[PMapped Tstring]]; Tuple true []] Tstring.
Proof. reflexivity. Qed.
Example ParamKeys_any_route_params : ParamKeys AnyRouteParams = Tuple false [].
Proof. reflexivity. Qed.
Example shapes_are_route_params :
  extends Tundefined AnyParams = true
  /\ extends shape_empty AnyParams = true
  /\ extends shape_id AnyParams = true
  /\ extends shape_org_repo AnyRouteParams = true
  /\ extends [PObject [("id", [ANumber])]] AnyParams = false.
Proof. repeat split. Qed.

Example tree_heap_conforms : heap_conforms tree_typing tree_heap = true.
Proof. vm_compute. reflexivity. Qed.

Example tree_edges : edges tree_heap = [(0, VRef 1); (0, VRef 2)].
Proof. vm_compute. reflexivity. Qed.

(** ** Assignability to [never] *)

Lemma ty_extends_never (T : ty) : ty_extends T never = true <-> T = never.
Proof.
  split; [|intros ->; reflexivity].
  destruct T as [|a T]; [reflexivity | discriminate].
Qed.

(** ** [RouteFunc] *)

Lemma RouteFunc_rest_single (a : shape) :
  rest (RouteFunc [a])
  = [Tuple true (match a with PUndefined => [] | _ => [[a]] end)].
Proof. destruct a; reflexivity. Qed.

Lemma requires_exactly_tuple (ro : bool) (es : list params) (T : ty) :
  requires_exactly (Func [Tuple ro es] T) (length es).
Proof.
  intros m. unfold accepts_arity. simpl. rewrite orb_false_r.
  rewrite Nat.eqb_eq. split; congruence.
Qed.

Lemma RouteFunc_rest_forms (P : params) :
  Forall (fun R => R = Tuple true [] \/ exists a, a ∈ P /\ R = Tuple true [[a]])
         (rest (RouteFunc P)).
Proof.
  unfold RouteFunc, distribute; cbn [rest].
  induction P as [|a P IH]; cbn [flat_map]; [constructor|].
  apply Forall_app; split.
  - destruct (extends [a] Tundefined); apply Forall_singleton; [by left|].
    right. exists a. split; [left | reflexivity].
  - eapply Forall_impl; [exact IH|].
    intros R [->|(b & Hb & ->)]; [by left|].
    right. exists b. split; [by right | reflexivity].
Qed.

(** Whatever the shape, union or not, a route function takes no argument or
    one. *)
Lemma RouteFunc_at_most_one_argument (P : params) (n : nat) :
  accepts_arity (RouteFunc P) n = true -> n = 0 \/ n = 1.
Proof.
  unfold accepts_arity. rewrite existsb_exists.
  intros (R & HR & Hn).
  pose proof (RouteFunc_rest_forms P) as HF.
  rewrite Forall_forall in HF. apply list_elem_of_In in HR.
  destruct (HF R HR) as [->|(a & _ & ->)];
    apply Nat.eqb_eq in Hn; simpl in Hn; auto.
Qed.

(** C1, as amended: the route function type derived from a parameter shape
    takes exactly zero arguments when the shape is [undefined], and exactly
    one argument, of the shape's own type, when the shape is an object type,
    whether that object type has keys or none. *)
Theorem RouteFunc_arity (a : shape) :
  rest (RouteFunc [a])
  = [Tuple true (match a with PUndefined => [] | _ => [[a]] end)]
  /\ requires_exactly (RouteFunc [a])
       (match a with PUndefined => 0 | _ => 1 end).
Proof.
  split; [apply RouteFunc_rest_single|].
  unfold requires_exactly. intros m.
  pose proof (RouteFunc_rest_single a) as Hr.
  destruct (RouteFunc [a]) as [r T]; simpl in Hr; subst r.
  destruct a; apply (requires_exactly_tuple true).
Qed.

(** C1, as stated, fails at the object shape without keys, [{}]: it has no
    keys, yet its route function rejects a call without arguments and takes
    exactly one argument, of type [{}]. *)
Lemma RouteFunc_empty_shape_takes_one_argument :
  extends shape_empty AnyParams = true
  /\ keyof shape_empty = never
  /\ accepts_arity (RouteFunc shape_empty) 0 = false
  /\ accepts_arity (RouteFunc shape_empty) 1 = true
  /\ rest (RouteFunc shape_empty) = [Tuple true [shape_empty]]
  /\ ~ (forall a : shape,
          keyof [a] = never -> requires_exactly (RouteFunc [a]) 0).
Proof.
  repeat split; try reflexivity.
  intros H. specialize (H (PObject []) eq_refl 1).
  destruct H as [H _]. specialize (H eq_refl). discriminate.
Qed.

(** C8: whatever the parameter shape, the derived route function returns a
    [string], and each of its forms takes no argument or the one params
    argument. *)
Theorem RouteFunc_returns_string (P : params) :
  returns (RouteFunc P) = Tstring
  /\ Forall (fun R => R = Tuple true []
                      \/ exists a, a ∈ P /\ R = Tuple true [[a]])
            (rest (RouteFunc P)).
Proof. split; [reflexivity | apply RouteFunc_rest_forms]. Qed.

(** ** [ParamKeys] *)

Section param_keys.
Variable Σ : gmap loc string.

(** The values of a union of string literal types. *)
Lemma has_ty_literals (v : scalar) (names : list string) :
  has_ty Σ v (map ALit names) = true <-> exists k, k ∈ names /\ v = VStr k.
Proof.
  unfold has_ty. rewrite existsb_exists. split.
  - intros (a & Ha & Hv). apply in_map_iff in Ha as (k & <- & Hk).
    exists k. split; [by apply list_elem_of_In|].
    destruct v; try discriminate. simpl in Hv.
    apply String.eqb_eq in Hv. by subst.
  - intros (k & Hk & ->). exists (ALit k). split.
    + apply in_map. by apply list_elem_of_In.
    + simpl. apply String.eqb_refl.
Qed.

(** A list is a value of [ParamKeys<P>] exactly when each of its elements
    is a key of [P]: for a type without keys that leaves the empty list. *)
Lemma ParamKeys_values (P : params) (vs : list scalar) :
  has_listty Σ vs (ParamKeys P) = true
  <-> Forall (fun v => has_ty Σ v (keyof P) = true) vs.
Proof.
  unfold ParamKeys. destruct (keyof P) as [|k K] eqn:HK; simpl.
  - destruct vs as [|v vs]; simpl.
    + split; [constructor | reflexivity].
    + split; [discriminate|]. intros H. by inversion H.
  - rewrite forallb_forall, Forall_forall.
    split; intros H v Hv; apply H; by apply list_elem_of_In.
Qed.

Lemma keyof_object (ps : list (string * ty)) :
  keyof [PObject ps] = map ALit (map fst ps).
Proof. simpl. by rewrite map_map. Qed.

Lemma ParamKeys_object (ps : list (string * ty)) :
  ParamKeys [PObject ps]
  = match ps with
    | [] => Tuple false []
    | _ => Array (map ALit (map fst ps))
    end.
Proof.
  unfold ParamKeys. rewrite keyof_object. by destruct ps as [|[k T] ps].
Qed.
End param_keys.

(** C3, as amended: for the parameter-less shape [undefined] the derived key
    list type is the empty tuple type, whose only value is the empty list;
    for an object shape it is the empty tuple type when the shape has no
    keys and otherwise the array type over the shape's parameter names.  Its
    values are the lists made of parameter names of the shape, in any order
    and number; the list of the names in declaration order is one of
    them. *)
Theorem ParamKeys_spec (Σ : gmap loc string) :
  (ParamKeys Tundefined = Tuple false []
   /\ forall vs, has_listty Σ vs (ParamKeys Tundefined) = true <-> vs = [])
  /\ forall ps : list (string * ty),
       ParamKeys [PObject ps]
       = match ps with
         | [] => Tuple false []
         | _ => Array (map ALit (map fst ps))
         end
       /\ (forall vs,
             has_listty Σ vs (ParamKeys [PObject ps]) = true
             <-> Forall (fun v => exists k, k ∈ map fst ps /\ v = VStr k) vs)
       /\ has_listty Σ (map VStr (map fst ps)) (ParamKeys [PObject ps]) = true.
Proof.
  split; [split; [reflexivity|]|].
  - intros [|v vs]; simpl; split; congruence.
  - intros ps. split; [apply ParamKeys_object|].
    assert (forall vs,
      has_listty Σ vs (ParamKeys [PObject ps]) = true
      <-> Forall (fun v => exists k, k ∈ map fst ps /\ v = VStr k) vs) as HV.
    { intros vs. rewrite ParamKeys_values, keyof_object.
      apply Forall_proper; [|reflexivity].
      intros v. apply has_ty_literals. }
    split; [exact HV|].
    apply HV. apply Forall_forall. intros v Hv.
    apply list_elem_of_In, in_map_iff in Hv as (k & <- & Hk).
    exists k. split; [by apply list_elem_of_In | reflexivity].
Qed.

Example ParamKeys_org_repo :
  ParamKeys shape_org_repo = Array [ALit "orgId"; ALit "repoId"]
  /\ has_listty ∅ [VStr "orgId"; VStr "repoId"] (ParamKeys shape_org_repo) = true.
Proof. split; reflexivity. Qed.

(** C3, as stated, fails at [{orgId: string, repoId: string}]: the derived
    type is the array type [("orgId" | "repoId")[]], not the tuple type
    [["orgId", "repoId"]]; the names in the other order, the empty list and
    a list that repeats a name are values of it as well. *)
Lemma ParamKeys_does_not_fix_the_list :
  extends shape_org_repo AnyRouteParams = true
  /\ ParamKeys shape_org_repo <> Tuple false [literal "orgId"; literal "repoId"]
  /\ has_listty ∅ [VStr "repoId"; VStr "orgId"] (ParamKeys shape_org_repo) = true
  /\ has_listty ∅ [] (ParamKeys shape_org_repo) = true
  /\ has_listty ∅ [VStr "orgId"; VStr "orgId"] (ParamKeys shape_org_repo) = true
  /\ ~ (forall vs : list scalar,
          has_listty ∅ vs (ParamKeys shape_org_repo) = true ->
          vs = [VStr "orgId"; VStr "repoId"]).
Proof.
  repeat split; try reflexivity; try discriminate.
  intros H. specialize (H [] eq_refl). discriminate.
Qed.

(** ** [OptionalParams] *)

Lemma OptionalParams_never_values (P : params) :
  index_access P (keyof P) = never -> OptionalParams P = Tundefined.
Proof. unfold OptionalParams. by intros ->. Qed.

Lemma OptionalParams_some_values (P : params) :
  index_access P (keyof P) <> never -> OptionalParams P = P.
Proof.
  unfold OptionalParams. intros H.
  destruct (ty_extends _ never) eqn:E; [|reflexivity].
  by apply ty_extends_never in E.
Qed.

Lemma OptionalParams_undefined : OptionalParams Tundefined = Tundefined.
Proof. reflexivity. Qed.

Lemma OptionalParams_idempotent (P : params) :
  OptionalParams (OptionalParams P) = OptionalParams P.
Proof.
  unfold OptionalParams at 2 3.
  destruct (ty_extends _ never) eqn:E; [reflexivity|].
  unfold OptionalParams. by rewrite E.
Qed.

(** The value type of an object shape over its keys is the union of its
    member types. *)
Lemma prop_type_NoDup (ps : list (string * ty)) (k : string) (T : ty) :
  NoDup (map fst ps) -> (k, T) ∈ ps -> prop_type ps k = Some T.
Proof.
  induction ps as [|[k' T'] ps IH]; simpl; intros Hnd Hin.
  - by apply elem_of_nil in Hin.
  - apply NoDup_cons in Hnd as [Hk' Hnd].
    apply elem_of_cons in Hin as [[= -> ->]|Hin].
    + by rewrite String.eqb_refl.
    + destruct (String.eqb_spec k' k) as [->|_]; [|by apply IH].
      exfalso. apply Hk'. apply list_elem_of_In, in_map_iff.
      exists (k, T). split; [reflexivity | by apply list_elem_of_In].
Qed.

Lemma flat_map_nil {A B : Type} (f : A -> list B) (l : list A) :
  flat_map f l = [] <-> forall x, x ∈ l -> f x = [].
Proof.
  induction l as [|x l IH]; simpl.
  - split; [|reflexivity]. intros _ y Hy. by apply elem_of_nil in Hy.
  - split.
    + intros H. apply app_eq_nil in H as [Hx Hl].
      intros y Hy. apply elem_of_cons in Hy as [->|Hy]; [done|].
      by apply IH.
    + intros H. rewrite (H x) by left. simpl. apply IH.
      intros y Hy. apply H. by right.
Qed.

Lemma index_access_object_never (ps : list (string * ty)) :
  NoDup (map fst ps) ->
  index_access [PObject ps] (keyof [PObject ps]) = never
  <-> forall k T, (k, T) ∈ ps -> T = never.
Proof.
  intros Hnd. unfold index_access. cbn [flat_map]. rewrite app_nil_r.
  rewrite keyof_object, flat_map_nil. split.
  - intros H k T Hin.
    specialize (H (ALit k)). simpl in H.
    rewrite (prop_type_NoDup ps k T Hnd Hin) in H. apply H.
    apply list_elem_of_In, in_map, in_map_iff.
    exists (k, T). split; [reflexivity | by apply list_elem_of_In].
  - intros H a Ha.
    apply list_elem_of_In, in_map_iff in Ha as (k & <- & Hk).
    apply in_map_iff in Hk as ([k' T] & <- & Hin). simpl.
    apply list_elem_of_In in Hin.
    rewrite (prop_type_NoDup ps k' T Hnd Hin). simpl. by eapply H.
Qed.

(** For an object shape: [undefined] when every member has type [never], in
    particular when there is no member; the shape itself otherwise. *)
Lemma OptionalParams_object (ps : list (string * ty)) :
  NoDup (map fst ps) ->
  OptionalParams [PObject ps]
  = if forallb (fun p => bool_decide (p.2 = never)) ps
    then Tundefined else [PObject ps].
Proof.
  intros Hnd.
  pose proof (index_access_object_never ps Hnd) as Hiff.
  destruct (forallb _ ps) eqn:E.
  - apply OptionalParams_never_values, Hiff. intros k T Hin.
    rewrite forallb_forall in E.
    apply list_elem_of_In in Hin. apply E in Hin.
    by apply bool_decide_eq_true in Hin.
  - apply OptionalParams_some_values. rewrite Hiff. intros H.
    apply not_true_iff_false in E. apply E.
    apply forallb_forall. intros [k T] Hin. apply bool_decide_eq_true.
    simpl. eapply H. by apply list_elem_of_In.
Qed.

(** The result is again a route-parameter type. *)
Lemma OptionalParams_is_route_params (P : params) :
  extends P [PMapped Tstring] = true ->
  extends (OptionalParams P) AnyRouteParams = true.
Proof.
  intros HP. unfold OptionalParams.
  destruct (ty_extends _ never); [reflexivity|].
  unfold extends in *. rewrite forallb_forall in *.
  intros a Ha. specialize (HP a Ha). simpl in *.
  rewrite orb_false_r in HP. by rewrite HP.
Qed.

(** C9: [OptionalParams] sends a parameter shape whose value type over its
    keys is [never] to [undefined], the shape without keys among them, and
    every other shape to itself; applying it twice gives what applying it
    once gives. *)
Theorem OptionalParams_spec (P : params) :
  OptionalParams P
  = (if decide (index_access P (keyof P) = never) then Tundefined else P)
  /\ OptionalParams shape_empty = Tundefined
  /\ OptionalParams (OptionalParams P) = OptionalParams P.
Proof.
  split; [|split; [reflexivity | apply OptionalParams_idempotent]].
  destruct (decide _) as [H|H].
  - by apply OptionalParams_never_values.
  - by apply OptionalParams_some_values.
Qed.

(** ** The shared marker *)

Lemma accessor_bound (id : string) (s : M scalar) (st : process) (v : scalar) :
  registry st !! id = Some v -> getOrCreateGlobalSingleton id s st = (v, st).
Proof. unfold getOrCreateGlobalSingleton. by intros ->. Qed.

(** The first caller creates the value: it is what its supplier returns. *)
Lemma accessor_creates (id : string) (s : M scalar) (st : process) :
  registry st !! id = None ->
  (getOrCreateGlobalSingleton id s st).1 = (s st).1.
Proof.
  unfold getOrCreateGlobalSingleton. intros ->. by destruct (s st).
Qed.

Lemma accessor_registers (id : string) (s : M scalar) (st : process) :
  registry (getOrCreateGlobalSingleton id s st).2 !! id
  = Some (getOrCreateGlobalSingleton id s st).1.
Proof.
  unfold getOrCreateGlobalSingleton.
  destruct (registry st !! id) as [v|] eqn:E; [exact E|].
  destruct (s st) as [v st']. simpl. apply lookup_insert_eq.
Qed.

Lemma accessor_keeps (id : string) (s : M scalar) (st : process) :
  keeps_registry s ->
  registry st ⊆ registry (getOrCreateGlobalSingleton id s st).2.
Proof.
  intros Hs. unfold getOrCreateGlobalSingleton.
  destruct (registry st !! id) as [v|] eqn:E; [reflexivity|].
  specialize (Hs st). destruct (s st) as [v st']. simpl in *.
  apply map_subseteq_spec. intros k x Hk.
  destruct (decide (id = k)) as [->|Hne]; [congruence|].
  rewrite lookup_insert_ne by done.
  by eapply lookup_weaken.
Qed.

Lemma calls_keep (st st' : process) :
  rtc call st st' -> registry st ⊆ registry st'.
Proof.
  induction 1 as [st|st st1 st2 Hc _ IH]; [reflexivity|].
  destruct Hc as [id s st Hs].
  etrans; [by apply accessor_keeps | exact IH].
Qed.

Lemma Symbol_keeps (d : string) : keeps_registry (Symbol d).
Proof. intros st. reflexivity. Qed.

(** Once a call has returned, every later call with that key returns the
    same value and changes nothing. *)
Lemma later_call_same (id : string) (s s' : M scalar) (st st2 : process) :
  rtc call (getOrCreateGlobalSingleton id s st).2 st2 ->
  getOrCreateGlobalSingleton id s' st2
  = ((getOrCreateGlobalSingleton id s st).1, st2).
Proof.
  intros Hc. apply accessor_bound.
  eapply lookup_weaken; [apply accessor_registers | by apply calls_keep].
Qed.

Lemma routeRefType_heap (st : process) : heap (routeRefType st).2 = heap st.
Proof.
  unfold routeRefType, getOrCreateGlobalSingleton.
  by destruct (registry st !! "route-ref-type").
Qed.

(** C2: the first call of the accessor with a key creates the value; any
    call with that key made later in the process, after any number of other
    calls of the accessor, returns the same value and leaves the process as
    it was. *)
Theorem shared_singleton_same_value
    (id : string) (s s' : M scalar) (st st2 : process) :
  rtc call (getOrCreateGlobalSingleton id s st).2 st2 ->
  getOrCreateGlobalSingleton id s' st2
  = ((getOrCreateGlobalSingleton id s st).1, st2).
Proof. apply later_call_same. Qed.

Lemma shared_singleton_same_value_witness :
  rtc call (routeRefType fresh_process).2 process_after_two_loads
  /\ routeRefType process_after_two_loads
     = (VSym 0 "route-ref-type", process_after_two_loads).
Proof.
  split.
  - apply rtc_once. apply call_accessor, Symbol_keeps.
  - apply (shared_singleton_same_value "route-ref-type"
             (Symbol "route-ref-type") (Symbol "route-ref-type")
             fresh_process process_after_two_loads).
    apply rtc_once. apply call_accessor, Symbol_keeps.
Defined.

(** Two copies of the module loaded into one process hold the same
    symbol. *)
Lemma routeRefType_twice (st : process) :
  routeRefType (routeRefType st).2 = ((routeRefType st).1, (routeRefType st).2).
Proof. apply later_call_same. apply rtc_refl. Qed.

(** C7, as amended: the two derivations on types are functions of the
    parameter shape alone.  Retrieving the marker is a function of the
    process state: when the marker exists it is returned and the process is
    left as it was; when it does not, a new symbol is created, stored in
    the registry under the key and returned, and nothing else changes.
    After one retrieval every further one is of the first kind. *)
Theorem routeRefType_effect (st : process) :
  (forall P Q : params,
     P = Q -> RouteFunc P = RouteFunc Q /\ ParamKeys P = ParamKeys Q)
  /\ routeRefType st
     = match registry st !! "route-ref-type" with
       | Some v => (v, st)
       | None =>
           (VSym (symbols st) "route-ref-type",
            Process (<["route-ref-type" := VSym (symbols st) "route-ref-type"]>
                       (registry st))
                    (S (symbols st)) (heap st))
       end
  /\ routeRefType (routeRefType st).2
     = ((routeRefType st).1, (routeRefType st).2).
Proof.
  split; [by intros P Q ->|]. split; [|apply routeRefType_twice].
  unfold routeRefType, getOrCreateGlobalSingleton.
  by destruct (registry st !! "route-ref-type").
Qed.

(** C7, as stated, fails for the first retrieval of the marker in a process:
    it stores the new symbol in the registry, so the process state after
    the call differs from the state before it. *)
Lemma routeRefType_first_call_changes_state :
  routeRefType fresh_process
  = (VSym 0 "route-ref-type",
     Process {[ "route-ref-type" := VSym 0 "route-ref-type" ]} 1 ∅)
  /\ registry fresh_process !! "route-ref-type" = None
  /\ registry (routeRefType fresh_process).2 !! "route-ref-type"
     = Some (VSym 0 "route-ref-type")
  /\ (routeRefType fresh_process).2 <> fresh_process.
Proof.
  repeat split. intros H.
  apply (f_equal symbols) in H. discriminate.
Qed.

(** ** External route references *)

Section descriptors.
Variable Σ : gmap loc string.

Lemma has_member_required (o : object) (name : string) (T : member_type) :
  has_member Σ o (Member name false T) = true ->
  exists x, o !! name = Some x /\ has_member_type Σ x T = true.
Proof.
  unfold has_member. simpl. destruct (o !! name) as [x|]; [|discriminate].
  rewrite orb_false_r. eauto.
Qed.

Lemma has_member_optional (o : object) (name : string) (T : member_type) :
  has_member Σ o (Member name true T) = true ->
  o !! name = None
  \/ exists x, o !! name = Some x
               /\ (has_member_type Σ x T = true \/ x = VScalar VUndefined).
Proof.
  unfold has_member. simpl. destruct (o !! name) as [x|]; [|by left].
  intros H. right. exists x. split; [reflexivity|].
  apply orb_true_iff in H as [H|H]; [by left | right].
  by destruct x as [[]| |].
Qed.

Lemma has_member_absent (o : object) (m : member) :
  o !! m_name m = None -> has_member Σ o m = m_optional m.
Proof. unfold has_member. by intros ->. Qed.

Lemma has_literal (v : scalar) (s : string) :
  has_ty Σ v (literal s) = true -> v = VStr s.
Proof.
  unfold has_ty, literal. simpl. rewrite orb_false_r.
  destruct v; try discriminate. simpl.
  intros H. apply String.eqb_eq in H. by subst.
Qed.

Lemma conforms_ExternalRouteRef (P : params) (O : ty) (o : object) :
  conforms Σ o (ExternalRouteRef P O) = true ->
  o !! "$$routeRefType" = Some (VScalar (VStr "external"))
  /\ (exists ks, o !! "params" = Some (VArray ks)
                 /\ has_listty Σ ks (ParamKeys P) = true)
  /\ (o !! "optional" = None
      \/ exists v, o !! "optional" = Some (VScalar v)
                   /\ (has_ty Σ v O = true \/ v = VUndefined)).
Proof.
  unfold conforms, ExternalRouteRef. cbn [forallb].
  rewrite !andb_true_iff. intros (Htag & Hparams & Hopt & _).
  apply has_member_required in Htag as (x & Hx & Htag).
  apply has_member_required in Hparams as (y & Hy & Hparams).
  apply has_member_optional in Hopt.
  split; [|split].
  - destruct x as [v| |]; try discriminate.
    apply has_literal in Htag. by subst.
  - destruct y as [|ks|]; try discriminate. eauto.
  - destruct Hopt as [Hopt|(z & Hz & Hopt)]; [by left | right].
    destruct Hopt as [Hopt| ->]; [|eauto].
    destruct z as [v| |]; try discriminate. eauto.
Qed.

(** A descriptor for a parameter-less shape lists no parameter. *)
Lemma conforms_no_params (P : params) (O : ty) (o : object) :
  keyof P = never ->
  conforms Σ o (ExternalRouteRef P O) = true ->
  o !! "params" = Some (VArray []).
Proof.
  intros HK Ho.
  apply conforms_ExternalRouteRef in Ho as (_ & (ks & Hks & Hty) & _).
  apply ParamKeys_values in Hty. rewrite HK in Hty.
  destruct Hty as [|v ks Hv _]; [exact Hks | discriminate].
Qed.

(** Setting or removing the flag of a descriptor gives a descriptor. *)
Lemma conforms_set_optional (P : params) (O O' : ty) (o : object) (b : bool) :
  has_ty Σ (VBool b) O' = true ->
  conforms Σ o (ExternalRouteRef P O) = true ->
  conforms Σ (<["optional" := VScalar (VBool b)]> o) (ExternalRouteRef P O')
  = true.
Proof.
  intros Hb. unfold conforms, ExternalRouteRef. cbn [forallb].
  rewrite !andb_true_iff. intros (Htag & Hparams & _ & _).
  unfold has_member in *. cbn [m_name m_optional m_type] in *.
  rewrite !lookup_insert_ne by done. rewrite lookup_insert_eq.
  repeat split; try assumption.
  cbn [has_member_type]. by rewrite Hb.
Qed.

Lemma conforms_delete_optional (P : params) (O O' : ty) (o : object) :
  conforms Σ o (ExternalRouteRef P O) = true ->
  conforms Σ (delete "optional" o) (ExternalRouteRef P O') = true.
Proof.
  unfold conforms, ExternalRouteRef. cbn [forallb].
  rewrite !andb_true_iff. intros (Htag & Hparams & _ & _).
  unfold has_member in *. cbn [m_name m_optional m_type] in *.
  rewrite !lookup_delete_ne by done. rewrite lookup_delete_eq.
  repeat split; assumption.
Qed.
End descriptors.

Example external_ref_conforms :
  conforms ∅ (external_ref [] None) (ExternalRouteRef Tundefined Tboolean) = true
  /\ conforms ∅ (external_ref [VStr "repoId"; VStr "orgId"] (Some true))
       (ExternalRouteRef shape_org_repo Tboolean) = true
  /\ conforms ∅ (external_ref [VStr "id"] None)
       (ExternalRouteRef Tundefined Tboolean) = false.
Proof. vm_compute. repeat split. Qed.

Lemma flag_states_differ (o : object) :
  flag_absent o !! "optional" = None
  /\ flag_set false o !! "optional" = Some (VScalar (VBool false))
  /\ flag_set true o !! "optional" = Some (VScalar (VBool true))
  /\ flag_absent o <> flag_set false o
  /\ flag_absent o <> flag_set true o
  /\ flag_set false o <> flag_set true o.
Proof.
  unfold flag_absent, flag_set.
  assert (forall (m1 m2 : object) (x y : option value),
            m1 !! "optional" = x -> m2 !! "optional" = y -> x <> y -> m1 <> m2)
    as Hne by (intros m1 m2 x y <- <- H ->; by apply H).
  repeat split.
  - apply lookup_delete_eq.
  - apply lookup_insert_eq.
  - apply lookup_insert_eq.
  - eapply Hne; [apply lookup_delete_eq | apply lookup_insert_eq | done].
  - eapply Hne; [apply lookup_delete_eq | apply lookup_insert_eq | done].
  - eapply Hne; [apply lookup_insert_eq | apply lookup_insert_eq | done].
Qed.

Lemma binding_of_flag (o : object) :
  binding_of (flag_absent o) = Required
  /\ binding_of (flag_set false o) = Required
  /\ binding_of (flag_set true o) = MayBeUnbound.
Proof.
  unfold binding_of, flag_absent, flag_set.
  by rewrite lookup_delete_eq, !lookup_insert_eq.
Qed.

(** C4: a descriptor of an external route reference whose parameter shape
    has no keys holds the empty list of parameter names, and when it carries
    no [optional] flag its binding is required.  The descriptor without the
    flag, with [optional: false] and with [optional: true] are three
    descriptors of the type, told apart by reading the flag; only the last
    may be left unbound. *)
Theorem parameterless_descriptor
    (Σ : gmap loc string) (P : params) (O : ty) (o : object) :
  keyof P = never ->
  conforms Σ o (ExternalRouteRef P O) = true ->
  o !! "params" = Some (VArray [])
  /\ (o !! "optional" = None -> binding_of o = Required)
  /\ (conforms Σ (flag_absent o) (ExternalRouteRef P Tboolean) = true
      /\ conforms Σ (flag_set false o) (ExternalRouteRef P Tboolean) = true
      /\ conforms Σ (flag_set true o) (ExternalRouteRef P Tboolean) = true)
  /\ (flag_absent o !! "optional" = None
      /\ flag_set false o !! "optional" = Some (VScalar (VBool false))
      /\ flag_set true o !! "optional" = Some (VScalar (VBool true))
      /\ flag_absent o <> flag_set false o
      /\ flag_absent o <> flag_set true o
      /\ flag_set false o <> flag_set true o)
  /\ (binding_of (flag_absent o) = Required
      /\ binding_of (flag_set false o) = Required
      /\ binding_of (flag_set true o) = MayBeUnbound).
Proof.
  intros HK Ho. split; [by eapply conforms_no_params|].
  split; [by unfold binding_of; intros ->|].
  split; [|split; [apply flag_states_differ | apply binding_of_flag]].
  split; [by eapply conforms_delete_optional|].
  split; by eapply conforms_set_optional.
Qed.

Lemma parameterless_descriptor_witness :
  keyof Tundefined = never
  /\ conforms ∅ (external_ref [] None) (ExternalRouteRef Tundefined Tboolean)
     = true
  /\ external_ref [] None !! "params" = Some (VArray [])
  /\ binding_of (external_ref [] None) = Required.
Proof.
  assert (keyof Tundefined = never) as HK by reflexivity.
  assert (conforms ∅ (external_ref [] None)
            (ExternalRouteRef Tundefined Tboolean) = true) as Ho
    by (vm_compute; reflexivity).
  pose proof (parameterless_descriptor ∅ Tundefined Tboolean
                (external_ref [] None) HK Ho) as (Hp & Hb & _).
  split; [exact HK|]. split; [exact Ho|]. split; [exact Hp|].
  apply Hb. reflexivity.
Defined.

(** C5: every value of the external route reference type holds the tag
    ['external'] in its [$$routeRefType] field, a list of parameter names
    of its shape in [params], and either no [optional] field or a value of
    the flag's type (or [undefined]) in it.  The one operation that the file
    runs, the retrieval of the shared marker, leaves every descriptor in the
    heap as it was. *)
Theorem ExternalRouteRef_fields
    (Σ : gmap loc string) (P : params) (O : ty) (o : object) :
  conforms Σ o (ExternalRouteRef P O) = true ->
  o !! "$$routeRefType" = Some (VScalar (VStr "external"))
  /\ (exists ks, o !! "params" = Some (VArray ks)
                 /\ Forall (fun k => has_ty Σ k (keyof P) = true) ks)
  /\ (o !! "optional" = None
      \/ exists v, o !! "optional" = Some (VScalar v)
                   /\ (has_ty Σ v O = true \/ v = VUndefined))
  /\ forall (st : process) (l : loc),
       heap st !! l = Some o -> heap (routeRefType st).2 !! l = Some o.
Proof.
  intros Ho.
  apply conforms_ExternalRouteRef in Ho as (Htag & (ks & Hks & Hty) & Hopt).
  split; [exact Htag|]. split; [|split; [exact Hopt|]].
  - exists ks. split; [exact Hks | by apply ParamKeys_values].
  - intros st l Hl. by rewrite routeRefType_heap.
Qed.

Lemma ExternalRouteRef_fields_witness :
  conforms ∅ (external_ref [VStr "orgId"; VStr "repoId"] (Some true))
    (ExternalRouteRef shape_org_repo Tboolean) = true
  /\ external_ref [VStr "orgId"; VStr "repoId"] (Some true) !! "$$routeRefType"
     = Some (VScalar (VStr "external")).
Proof.
  assert (conforms ∅ (external_ref [VStr "orgId"; VStr "repoId"] (Some true))
            (ExternalRouteRef shape_org_repo Tboolean) = true) as Ho
    by (vm_compute; reflexivity).
  split; [exact Ho|].
  exact (proj1 (ExternalRouteRef_fields ∅ shape_org_repo Tboolean _ Ho)).
Defined.

(** ** Route tree nodes *)

Section nodes.
Variable Σ : gmap loc string.

Lemma conforms_requires (o : object) (decl : interface) (m : member) :
  m ∈ decl -> m_optional m = false -> o !! m_name m = None ->
  conforms Σ o decl = false.
Proof.
  intros Hm Hreq Hnone. destruct (conforms Σ o decl) eqn:E; [|reflexivity].
  unfold conforms in E. rewrite forallb_forall in E.
  apply list_elem_of_In in Hm. specialize (E m Hm).
  rewrite has_member_absent in E by done. congruence.
Qed.

Lemma conforms_delete (o : object) (decl : interface) (name : string) :
  (forall m, m ∈ decl -> m_name m = name -> m_optional m = true) ->
  conforms Σ o decl = true ->
  conforms Σ (delete name o) decl = true.
Proof.
  intros Hopt. unfold conforms. rewrite !forallb_forall.
  intros Ho m Hm. specialize (Ho m Hm). apply list_elem_of_In in Hm.
  unfold has_member in *.
  destruct (decide (m_name m = name)) as [Heq|Hne].
  - rewrite <- Heq, lookup_delete_eq. by apply Hopt.
  - by rewrite lookup_delete_ne.
Qed.

Lemma has_boolean (v : scalar) :
  has_ty Σ v Tboolean = true -> exists b, v = VBool b.
Proof. destruct v as [|b| | | |]; try discriminate. eauto. Qed.

Lemma has_string (v : scalar) :
  has_ty Σ v Tstring = true -> exists s, v = VStr s.
Proof. destruct v as [| | |s| |]; try discriminate. eauto. Qed.

Lemma has_object (v : scalar) (name : string) :
  has_ty Σ v [AObject name] = true -> exists l, v = VRef l /\ Σ !! l = Some name.
Proof.
  unfold has_ty. simpl. rewrite orb_false_r.
  destruct v as [| | | | |l]; try discriminate.
  intros H. apply bool_decide_eq_true in H. eauto.
Qed.

Lemma conforms_BackstageRouteObject (o : object) :
  conforms Σ o BackstageRouteObject = true ->
  (exists b, o !! "caseSensitive" = Some (VScalar (VBool b)))
  /\ (o !! "children" = None
      \/ o !! "children" = Some (VScalar VUndefined)
      \/ exists cs, o !! "children" = Some (VArray cs)
           /\ Forall (fun c => exists l, c = VRef l
                        /\ Σ !! l = Some "BackstageRouteObject") cs)
  /\ is_Some (o !! "element")
  /\ (exists s, o !! "path" = Some (VScalar (VStr s)))
  /\ (exists refs : gset scalar,
        o !! "routeRefs" = Some (VSet refs)
        /\ forall r, r ∈ refs -> exists l, r = VRef l /\ Σ !! l = Some "RouteRef").
Proof.
  unfold conforms, BackstageRouteObject. cbn [forallb].
  rewrite !andb_true_iff. intros (Hcs & Hch & Hel & Hpa & Hrr & _).
  apply has_member_required in Hcs as (x1 & Hx1 & Hcs).
  apply has_member_optional in Hch.
  apply has_member_required in Hel as (x3 & Hx3 & _).
  apply has_member_required in Hpa as (x4 & Hx4 & Hpa).
  apply has_member_required in Hrr as (x5 & Hx5 & Hrr).
  repeat split.
  - destruct x1 as [v| |]; try discriminate.
    apply has_boolean in Hcs as (b & ->). eauto.
  - destruct Hch as [Hch|(x2 & Hx2 & [Hch| ->])]; [by left | | by right; left].
    right; right. destruct x2 as [|cs|]; try discriminate.
    exists cs. split; [exact Hx2|]. simpl in Hch.
    rewrite forallb_forall in Hch. apply Forall_forall. intros c Hc.
    apply has_object, Hch. by apply list_elem_of_In.
  - eauto.
  - destruct x4 as [v| |]; try discriminate.
    apply has_string in Hpa as (s & ->). eauto.
  - destruct x5 as [| |refs]; try discriminate.
    exists refs. split; [exact Hx5|]. simpl in Hrr.
    rewrite forallb_forall in Hrr. intros r Hr.
    apply has_object, Hrr. by apply list_elem_of_In, elem_of_elements.
Qed.
End nodes.

(** C10: in an object of type [BackstageRouteObject] the fields
    [caseSensitive], [element], [path] and [routeRefs] are present, a
    boolean, a renderable element, a string and a [Set] of route references
    in which no reference occurs twice.  Taking [children] away leaves an
    object of the type; taking any of the other four away does not. *)
Theorem BackstageRouteObject_fields (Σ : gmap loc string) (o : object) :
  conforms Σ o BackstageRouteObject = true ->
  (exists b, o !! "caseSensitive" = Some (VScalar (VBool b)))
  /\ is_Some (o !! "element")
  /\ (exists s, o !! "path" = Some (VScalar (VStr s)))
  /\ (exists refs : gset scalar,
        o !! "routeRefs" = Some (VSet refs)
        /\ NoDup (elements refs)
        /\ forall r, r ∈ refs -> exists l, r = VRef l /\ Σ !! l = Some "RouteRef")
  /\ conforms Σ (delete "children" o) BackstageRouteObject = true
  /\ Forall (fun name => conforms Σ (delete name o) BackstageRouteObject = false)
            ["caseSensitive"; "element"; "path"; "routeRefs"].
Proof.
  intros Ho.
  pose proof (conforms_BackstageRouteObject Σ o Ho)
    as (Hcs & _ & Hel & Hpa & (refs & Hrr & Hty)).
  split; [exact Hcs|]. split; [exact Hel|]. split; [exact Hpa|].
  split; [exists refs; split; [exact Hrr | split; [apply NoDup_elements | exact Hty]]|].
  split.
  - apply conforms_delete; [|exact Ho].
    intros m Hm Hname. unfold BackstageRouteObject in Hm.
    repeat (apply elem_of_cons in Hm as [->|Hm]; [by try discriminate|]).
    by apply elem_of_nil in Hm.
  - repeat constructor.
    + apply (conforms_requires Σ _ _ (Member "caseSensitive" false (MType Tboolean)));
        [apply list_elem_of_In; simpl; auto 10 | done | apply lookup_delete_eq].
    + apply (conforms_requires Σ _ _ (Member "element" false (MExternal "React.ReactNode")));
        [apply list_elem_of_In; simpl; auto 10 | done | apply lookup_delete_eq].
    + apply (conforms_requires Σ _ _ (Member "path" false (MType Tstring)));
        [apply list_elem_of_In; simpl; auto 10 | done | apply lookup_delete_eq].
    + apply (conforms_requires Σ _ _ (Member "routeRefs" false (MSet [AObject "RouteRef"])));
        [apply list_elem_of_In; simpl; auto 10 | done | apply lookup_delete_eq].
Qed.

Lemma BackstageRouteObject_fields_witness :
  conforms tree_typing tree_catalog BackstageRouteObject = true
  /\ tree_catalog !! "children" = None
  /\ is_Some (tree_catalog !! "element").
Proof.
  assert (conforms tree_typing tree_catalog BackstageRouteObject = true) as Ho
    by (vm_compute; reflexivity).
  split; [exact Ho|]. split; [reflexivity|].
  exact (proj1 (proj2 (BackstageRouteObject_fields tree_typing tree_catalog Ho))).
Defined.

(** ** Ownership of children and association of route references *)

Lemma child_of_edges (h : gmap loc object) (c : scalar) (p : loc) :
  child_of h c p <-> (p, c) ∈ edges h.
Proof.
  unfold child_of, edges. rewrite list_elem_of_In, in_flat_map. split.
  - intros (o & Ho & Hc). exists (p, o). split.
    + by apply list_elem_of_In, elem_of_map_to_list.
    + simpl. apply in_map. by apply list_elem_of_In.
  - intros ([p' o] & Hpo & Hc). simpl in Hc.
    apply in_map_iff in Hc as (c' & [= -> ->] & Hc').
    exists o. split.
    + by apply elem_of_map_to_list, list_elem_of_In.
    + by apply list_elem_of_In.
Qed.

Lemma NoDup_fmap_same {A B : Type} (f : A -> B) (l : list A) (x y : A) :
  NoDup (f <$> l) -> x ∈ l -> y ∈ l -> f x = f y -> x = y.
Proof.
  induction l as [|a l IH]; simpl; intros Hnd Hx Hy Hf.
  - by apply elem_of_nil in Hx.
  - apply NoDup_cons in Hnd as [Ha Hnd].
    apply elem_of_cons in Hx as [->|Hx]; apply elem_of_cons in Hy as [->|Hy].
    + reflexivity.
    + exfalso. apply Ha. rewrite Hf. by apply list_elem_of_fmap_2.
    + exfalso. apply Ha. rewrite <- Hf. by apply list_elem_of_fmap_2.
    + by apply IH.
Qed.

Lemma exclusive_from_edges (h : gmap loc object) :
  NoDup (edges h).*2 -> exclusive_children h.
Proof.
  intros Hnd c p p' Hp Hp'.
  apply child_of_edges in Hp, Hp'.
  by pose proof (NoDup_fmap_same snd _ _ _ Hnd Hp Hp' eq_refl) as [= ->].
Qed.

Lemma children_of_set_refs (o : object) (refs : gset scalar) :
  children_of (<["routeRefs" := VSet refs]> o) = children_of o.
Proof. unfold children_of. by rewrite lookup_insert_ne. Qed.

(** Which references a node is associated with has no bearing on who its
    children are. *)
Lemma child_of_set_refs (h : gmap loc object) (n : loc) (o : object)
    (refs : gset scalar) (c : scalar) (p : loc) :
  h !! n = Some o ->
  child_of (<[n := <["routeRefs" := VSet refs]> o]> h) c p <-> child_of h c p.
Proof.
  intros Hn. unfold child_of. destruct (decide (n = p)) as [->|Hne].
  - rewrite lookup_insert_eq. split.
    + intros (o' & [= <-] & Hc). rewrite children_of_set_refs in Hc. eauto.
    + intros (o' & Ho' & Hc). rewrite Hn in Ho'. injection Ho' as <-.
      eexists. split; [reflexivity|]. by rewrite children_of_set_refs.
  - by rewrite lookup_insert_ne.
Qed.

Lemma exclusive_set_refs (h : gmap loc object) (n : loc) (o : object)
    (refs : gset scalar) :
  h !! n = Some o -> exclusive_children h ->
  exclusive_children (<[n := <["routeRefs" := VSet refs]> o]> h).
Proof.
  intros Hn Hex c p p' Hp Hp'.
  apply (child_of_set_refs h n o refs c _ Hn) in Hp, Hp'. by eapply Hex.
Qed.

Lemma tree_heap_exclusive : exclusive_children tree_heap.
Proof.
  apply exclusive_from_edges. rewrite tree_edges. simpl.
  apply (bool_decide_unpack _). vm_compute. exact I.
Qed.

(** C6: there is a route tree, a root with two children, in which one route
    reference is a member of the [routeRefs] sets of two different nodes and
    the [routeRefs] set of one node has two members, while no node is a child
    of two nodes; and whatever set of references is put on whichever node of
    it, no node becomes a child of two nodes. *)
Theorem route_refs_many_to_many :
  exists (Σ : gmap loc string) (h : gmap loc object),
    heap_conforms Σ h = true
    /\ (exists (n1 n2 : loc) (o1 o2 : object) (r : scalar),
          n1 <> n2
          /\ Σ !! n1 = Some "BackstageRouteObject"
          /\ Σ !! n2 = Some "BackstageRouteObject"
          /\ h !! n1 = Some o1 /\ h !! n2 = Some o2
          /\ r ∈ routeRefs_of o1 /\ r ∈ routeRefs_of o2)
    /\ (exists (n : loc) (o : object),
          Σ !! n = Some "BackstageRouteObject"
          /\ h !! n = Some o /\ 1 < size (routeRefs_of o))
    /\ (child_of h (VRef 1) 0 /\ child_of h (VRef 2) 0)
    /\ exclusive_children h
    /\ forall (n : loc) (o : object) (refs : gset scalar),
         h !! n = Some o ->
         exclusive_children (<[n := <["routeRefs" := VSet refs]> o]> h).
Proof.
  exists tree_typing, tree_heap.
  split; [apply tree_heap_conforms|].
  split; [|split; [|split; [|split]]].
  - exists 0, 1, tree_root, tree_catalog, (VRef 10).
    repeat split; try done;
      apply (bool_decide_unpack _); vm_compute; exact I.
  - exists 0, tree_root. repeat split; try done.
    vm_compute. lia.
  - split; apply child_of_edges; rewrite tree_edges;
      apply list_elem_of_In; simpl; auto.
  - apply tree_heap_exclusive.
  - intros n o refs Hn. apply exclusive_set_refs; [exact Hn|].
    apply tree_heap_exclusive.
Qed.

(** * Further properties *)

(** ** [RouteFunc] on union types *)

Lemma extends_single_undefined (a : shape) :
  extends [a] Tundefined = true <-> a = PUndefined.
Proof. destruct a; simpl; split; congruence. Qed.

Lemma accepts_arity_RouteFunc (P : params) (n : nat) :
  accepts_arity (RouteFunc P) n = true
  <-> exists a, a ∈ P /\ n = match a with PUndefined => 0 | _ => 1 end.
Proof.
  unfold accepts_arity, RouteFunc, distribute. cbn [rest].
  rewrite existsb_exists. split.
  - intros (R & HR & Hn). apply in_flat_map in HR as (a & Ha & HR).
    exists a. split; [by apply list_elem_of_In|].
    destruct a; simpl in HR; destruct HR as [<-|[]];
      apply Nat.eqb_eq in Hn; simpl in Hn; congruence.
  - intros (a & Ha & ->).
    exists (Tuple true (match a with PUndefined => [] | _ => [[a]] end)).
    split; [|by destruct a].
    apply in_flat_map. exists a. split; [by apply list_elem_of_In|].
    destruct a; simpl; by left.
Qed.

(** X1: the conditional of [RouteFunc] distributes over a union.  The
    function may be called without argument exactly when [undefined] is a
    constituent of the parameter type, with one argument exactly when some
    other constituent is, and never with more; so for [never] it cannot be
    called at all, and for [{...} | undefined] the argument is optional. *)
Theorem RouteFunc_union_arity (P : params) :
  (accepts_arity (RouteFunc P) 0 = true <-> PUndefined ∈ P)
  /\ (accepts_arity (RouteFunc P) 1 = true
      <-> exists a, a ∈ P /\ a <> PUndefined)
  /\ (forall n, accepts_arity (RouteFunc P) (S (S n)) = false).
Proof.
  split; [|split].
  - rewrite accepts_arity_RouteFunc. split.
    + intros (a & Ha & Hn). by destruct a.
    + intros H. by exists PUndefined.
  - rewrite accepts_arity_RouteFunc. split.
    + intros (a & Ha & Hn). exists a. split; [done|]. by intros ->.
    + intros (a & Ha & Hne). exists a. split; [done|]. by destruct a.
  - intros n. apply not_true_iff_false. rewrite accepts_arity_RouteFunc.
    intros (a & _ & Hn). by destruct a.
Qed.

(** ** [keyof] of a union *)

Lemma key_inter_never_r (K : ty) : key_inter K never = never.
Proof. unfold key_inter. by induction K. Qed.

Lemma foldl_key_inter_never (Ks : list ty) : foldl key_inter never Ks = never.
Proof. by induction Ks. Qed.

Lemma foldl_key_inter_has_never (K : ty) (Ks : list ty) :
  never ∈ Ks -> foldl key_inter K Ks = never.
Proof.
  revert K. induction Ks as [|K' Ks IH]; intros K H.
  - by apply elem_of_nil in H.
  - simpl. apply elem_of_cons in H as [<-|H]; [|by apply IH].
    rewrite key_inter_never_r. apply foldl_key_inter_never.
Qed.

Lemma keyof_with_undefined (P : params) : PUndefined ∈ P -> keyof P = never.
Proof.
  destruct P as [|a P]; intros H; [by apply elem_of_nil in H|].
  simpl. apply elem_of_cons in H as [<-|H].
  - apply foldl_key_inter_never.
  - apply foldl_key_inter_has_never.
    apply list_elem_of_In, in_map_iff. exists PUndefined.
    split; [reflexivity | by apply list_elem_of_In].
Qed.

(** X2: when [undefined] is one of the constituents of the parameter type,
    as in [{ id: string } | undefined] or [AnyRouteParams] itself, the type
    has no key at all: [ParamKeys] is the empty tuple type, whatever the
    other constituents declare, and the empty list is its only value. *)
Theorem ParamKeys_with_undefined
    (Σ : gmap loc string) (P : params) (vs : list scalar) :
  PUndefined ∈ P ->
  ParamKeys P = Tuple false []
  /\ (has_listty Σ vs (ParamKeys P) = true <-> vs = []).
Proof.
  intros H. unfold ParamKeys. rewrite (keyof_with_undefined P H). simpl.
  split; [reflexivity|]. destruct vs; simpl; split; congruence.
Qed.

Lemma ParamKeys_with_undefined_witness :
  PUndefined ∈ [PObject [("id", Tstring)]; PUndefined]
  /\ ParamKeys [PObject [("id", Tstring)]; PUndefined] = Tuple false [].
Proof.
  assert (PUndefined ∈ [PObject [("id", Tstring)]; PUndefined]) as H
    by (right; left).
  split; [exact H|].
  exact (proj1 (ParamKeys_with_undefined ∅ _ [] H)).
Defined.

Section keys_of_unions.
Variable Σ : gmap loc string.









End keys_of_unions.


Example ParamKeys_two_alternatives :
  ParamKeys [PObject [("orgId", Tstring); ("repoId", Tstring)];
             PObject [("repoId", Tstring); ("tag", Tstring)]]
  = Array [ALit "repoId"].
Proof. reflexivity. Qed.

(** ** What [AnyRouteParams] admits *)

Lemma atom_extends_string (a : atom) :
  atom_extends a AString = true <-> a = AString \/ exists s, a = ALit s.
Proof.
  destruct a; simpl; split; try discriminate; eauto;
    intros [H|[s H]]; discriminate.
Qed.

Lemma ty_extends_string (T : ty) :
  ty_extends T Tstring = true
  <-> Forall (fun a => a = AString \/ exists s, a = ALit s) T.
Proof.
  unfold ty_extends, Tstring. rewrite forallb_forall, Forall_forall.
  split; intros H a Ha.
  - apply list_elem_of_In in Ha. specialize (H a Ha). simpl in H.
    rewrite orb_false_r in H. by apply atom_extends_string.
  - simpl. rewrite orb_false_r. apply atom_extends_string, H.
    by apply list_elem_of_In.
Qed.

(** X4: an object shape is a route-parameter type, that is, it satisfies
    the bound [AnyRouteParams], exactly when the type of each of its
    parameters is a union of [string] and string literal types.  A shape
    with a parameter of another type, such as [number], is refused. *)
Theorem AnyRouteParams_admits (ps : list (string * ty)) :
  extends [PObject ps] AnyRouteParams = true
  <-> Forall (fun p => Forall (fun a => a = AString \/ exists s, a = ALit s) p.2)
             ps.
Proof.
  unfold extends, AnyRouteParams. cbn [forallb existsb shape_extends].
  rewrite andb_true_r, !orb_false_r, forallb_forall, Forall_forall.
  split; intros H p Hp.
  - apply ty_extends_string, H. by apply list_elem_of_In.
  - apply ty_extends_string, H. by apply list_elem_of_In.
Qed.

(** ** How the aliases compose *)

Lemma requires_exactly_single (a : shape) :
  requires_exactly (RouteFunc [a]) (match a with PUndefined => 0 | _ => 1 end).
Proof.
  intros m. rewrite accepts_arity_RouteFunc. split.
  - intros (b & Hb & ->). by apply list_elem_of_singleton in Hb as ->.
  - intros ->. exists a. split; [by left | reflexivity].
Qed.

Lemma all_never_Forall (ps : list (string * ty)) :
  forallb (fun p => bool_decide (p.2 = never)) ps = true
  <-> Forall (fun p => p.2 = never) ps.
Proof.
  rewrite forallb_forall, Forall_forall.
  split; intros H p Hp.
  - eapply bool_decide_eq_true_1, H. by apply list_elem_of_In.
  - apply bool_decide_eq_true_2, H. by apply list_elem_of_In.
Qed.

(** X5: for an object shape with distinct parameter names, [OptionalParams]
    gives [undefined] exactly when every parameter has type [never], which
    includes the shape without parameters, and gives the shape back exactly
    when some parameter has another type. *)
Theorem OptionalParams_by_members (ps : list (string * ty)) :
  NoDup (map fst ps) ->
  (OptionalParams [PObject ps] = Tundefined
   <-> Forall (fun p => p.2 = never) ps)
  /\ (OptionalParams [PObject ps] = [PObject ps]
      <-> Exists (fun p => p.2 <> never) ps).
Proof.
  intros Hnd. rewrite (OptionalParams_object ps Hnd).
  rewrite <- all_never_Forall.
  destruct (forallb _ ps) eqn:E.
  - split; [done|]. split; [discriminate|].
    intros Hex. apply all_never_Forall in E.
    apply Exists_exists in Hex as (p & Hp & Hne).
    rewrite Forall_forall in E. by destruct (Hne (E p Hp)).
  - split; [split; discriminate|]. split; [intros _ | done].
    apply not_Forall_Exists; [intros p; apply _|].
    intros HF. apply all_never_Forall in HF. congruence.
Qed.

Lemma OptionalParams_by_members_witness :
  NoDup (map fst [("orgId", Tstring); ("repoId", Tstring)])
  /\ (OptionalParams shape_org_repo = shape_org_repo
      <-> Exists (fun p : string * ty => p.2 <> never)
                 [("orgId", Tstring); ("repoId", Tstring)]).
Proof.
  assert (NoDup (map fst [("orgId", Tstring); ("repoId", Tstring)])) as Hnd
    by (apply (bool_decide_unpack _); vm_compute; exact I).
  split; [exact Hnd|].
  exact (proj2 (OptionalParams_by_members _ Hnd)).
Defined.

(** X6: a route function typed by the normalised shape,
    [RouteFunc<OptionalParams<P>>], takes no argument when every parameter
    of the object shape [P] has type [never], in particular when [P] is
    [{}], and exactly one argument otherwise. *)
Theorem RouteFunc_after_OptionalParams (ps : list (string * ty)) :
  NoDup (map fst ps) ->
  requires_exactly (RouteFunc (OptionalParams [PObject ps]))
    (if forallb (fun p => bool_decide (p.2 = never)) ps then 0 else 1).
Proof.
  intros Hnd. rewrite (OptionalParams_object ps Hnd).
  destruct (forallb _ ps).
  - apply (requires_exactly_single PUndefined).
  - apply (requires_exactly_single (PObject ps)).
Qed.

Lemma RouteFunc_after_OptionalParams_witness :
  NoDup (map fst ([] : list (string * ty)))
  /\ requires_exactly (RouteFunc (OptionalParams shape_empty)) 0.
Proof.
  assert (NoDup (map fst ([] : list (string * ty)))) as Hnd by constructor.
  split; [exact Hnd|].
  exact (RouteFunc_after_OptionalParams [] Hnd).
Defined.

(** X7: normalising an object shape whose parameters all have an inhabited
    type does not change its key list type: [ParamKeys<OptionalParams<P>>]
    is [ParamKeys<P>], also for the shape without parameters, where both are
    the empty tuple type. *)
Theorem ParamKeys_after_OptionalParams (ps : list (string * ty)) :
  NoDup (map fst ps) ->
  Forall (fun p => p.2 <> never) ps ->
  ParamKeys (OptionalParams [PObject ps]) = ParamKeys [PObject ps].
Proof.
  intros Hnd Hne. rewrite (OptionalParams_object ps Hnd).
  destruct ps as [|[k T] ps]; [reflexivity|].
  apply Forall_cons in Hne as [HT _]. simpl in *.
  by rewrite bool_decide_eq_false_2.
Qed.

Lemma ParamKeys_after_OptionalParams_witness :
  NoDup (map fst [("orgId", Tstring); ("repoId", Tstring)])
  /\ Forall (fun p : string * ty => p.2 <> never)
            [("orgId", Tstring); ("repoId", Tstring)]
  /\ ParamKeys (OptionalParams shape_org_repo) = ParamKeys shape_org_repo.
Proof.
  assert (NoDup (map fst [("orgId", Tstring); ("repoId", Tstring)])) as Hnd
    by (apply (bool_decide_unpack _); vm_compute; exact I).
  assert (Forall (fun p : string * ty => p.2 <> never)
            [("orgId", Tstring); ("repoId", Tstring)]) as Hne
    by (repeat constructor; discriminate).
  split; [exact Hnd|]. split; [exact Hne|].
  exact (ParamKeys_after_OptionalParams _ Hnd Hne).
Defined.

(** X8: the result of [OptionalParams] on a type within its bound
    [{ [param in string]: string }] is within [AnyRouteParams], the bound of
    [ParamKeys]; so is every type within the bound itself. *)
Theorem OptionalParams_within_AnyRouteParams (P : params) :
  extends P [PMapped Tstring] = true ->
  extends (OptionalParams P) AnyRouteParams = true
  /\ extends P AnyRouteParams = true.
Proof.
  intros HP. split; [by apply OptionalParams_is_route_params|].
  unfold extends in *. rewrite forallb_forall in *.
  intros a Ha. specialize (HP a Ha). simpl in *.
  rewrite orb_false_r in HP. by rewrite HP.
Qed.

Lemma OptionalParams_within_AnyRouteParams_witness :
  extends shape_empty [PMapped Tstring] = true
  /\ extends (OptionalParams shape_empty) AnyRouteParams = true.
Proof.
  assert (extends shape_empty [PMapped Tstring] = true) as H by reflexivity.
  split; [exact H|].
  exact (proj1 (OptionalParams_within_AnyRouteParams shape_empty H)).
Defined.

(** ** Descriptors of external route references, further *)



(** ** Route trees in a conforming heap *)

Lemma heap_conforms_lookup (Σ : gmap loc string) (h : gmap loc object)
    (l : loc) (name : string) (decl : interface) :
  heap_conforms Σ h = true ->
  Σ !! l = Some name -> declared name = Some decl ->
  exists o, h !! l = Some o /\ conforms Σ o decl = true.
Proof.
  unfold heap_conforms. rewrite forallb_forall. intros H Hl Hd.
  specialize (H (l, name)). simpl in H. rewrite Hd in H.
  destruct (h !! l) as [o|].
  - exists o. split; [reflexivity|].
    by apply H, list_elem_of_In, elem_of_map_to_list.
  - exfalso. apply not_true_iff_false in H; [done | reflexivity |].
    by apply list_elem_of_In, elem_of_map_to_list.
Qed.

Lemma children_typed (Σ : gmap loc string) (h : gmap loc object)
    (p : loc) (c : scalar) :
  heap_conforms Σ h = true ->
  Σ !! p = Some "BackstageRouteObject" ->
  child_of h c p ->
  exists l, c = VRef l /\ Σ !! l = Some "BackstageRouteObject".
Proof.
  intros Hh Hp (o & Ho & Hc).
  destruct (heap_conforms_lookup Σ h p _ BackstageRouteObject Hh Hp eq_refl)
    as (o' & Ho' & Hconf).
  rewrite Ho in Ho'. injection Ho' as <-.
  apply conforms_BackstageRouteObject in Hconf as (_ & Hch & _).
  unfold children_of in Hc.
  destruct Hch as [Hch|[Hch|(cs & Hch & Hcs)]]; rewrite Hch in Hc.
  - by apply elem_of_nil in Hc.
  - by apply elem_of_nil in Hc.
  - rewrite Forall_forall in Hcs. by apply Hcs.
Qed.

(** X10: in a heap that conforms to its typing, every entry of the
    [children] array of a route tree node is a reference to a route tree
    node, and every node reached from a node through [children], at any
    depth, is in the heap and is of type [BackstageRouteObject]: a tree has
    no dangling child and no child of another kind. *)
Theorem descendants_are_nodes
    (Σ : gmap loc string) (h : gmap loc object) (p : loc) :
  heap_conforms Σ h = true ->
  Σ !! p = Some "BackstageRouteObject" ->
  (forall c, child_of h c p ->
     exists l, c = VRef l /\ Σ !! l = Some "BackstageRouteObject")
  /\ (forall l, rtc (child_node h) p l ->
        Σ !! l = Some "BackstageRouteObject"
        /\ exists o, h !! l = Some o
                     /\ conforms Σ o BackstageRouteObject = true).
Proof.
  intros Hh Hp. split; [intros c; by apply children_typed|].
  intros l Hrtc. induction Hrtc as [p|p q l Hpq _ IH].
  - split; [exact Hp|]. by eapply heap_conforms_lookup.
  - apply IH.
    destruct (children_typed Σ h p (VRef q) Hh Hp Hpq) as (l' & [= <-] & Hq).
    exact Hq.
Qed.

Lemma descendants_are_nodes_witness :
  heap_conforms tree_typing tree_heap = true
  /\ tree_typing !! 0 = Some "BackstageRouteObject"
  /\ rtc (child_node tree_heap) 0 2
  /\ tree_typing !! 2 = Some "BackstageRouteObject"
  /\ exists o, tree_heap !! 2 = Some o
                /\ conforms tree_typing o BackstageRouteObject = true.
Proof.
  assert (heap_conforms tree_typing tree_heap = true) as Hh
    by (vm_compute; reflexivity).
  assert (tree_typing !! 0 = Some "BackstageRouteObject") as Hp
    by reflexivity.
  assert (rtc (child_node tree_heap) 0 2) as Hr.
  { apply rtc_once. apply child_of_edges. rewrite tree_edges.
    apply list_elem_of_In. simpl. auto. }
  split; [exact Hh|]. split; [exact Hp|]. split; [exact Hr|].
  exact (proj2 (descendants_are_nodes tree_typing tree_heap 0 Hh Hp) 2 Hr).
Defined.

(** ** The marker among the shared singletons *)



